(** * pulp.client.search: the query options of the search commands

    A shallow embedding of [platform/src/pulp/client/search.py]: the
    filter-term parser, the sort-spec validator and parser, and the option
    sets of the command variants ([SearchCommand], [UnitSearchCommand],
    [UnitCopyCommand], [UnitSearchAllCommand]).

    Command-line values are Python 2 byte strings ([str]); they are modelled
    as [string], one [ascii] per byte.  Raising is modelled explicitly: a
    computation returns [Return v] or [Raise e]. *)

From Stdlib Require Import Strings.String Strings.Ascii Lists.List Bool Arith Lia.
Import ListNotations.

Local Open Scope string_scope.
Local Open Scope list_scope.

(** ** Exceptions and fallible computations *)

Inductive exception : Type :=
| ValueError (msg : string)
| IndexError
| CommandUsage.

Inductive result (A : Type) : Type :=
| Return (v : A)
| Raise (e : exception).

Arguments Return {A} v.
Arguments Raise {A} e.

Definition bind {A B : Type} (m : result A) (k : A -> result B) : result B :=
  match m with
  | Return v => k v
  | Raise e => Raise e
  end.

Notation "x <- m ;; k" := (bind m (fun x => k))
  (at level 61, m at next level, right associativity).
Notation "' p <- m ;; k" := (bind m (fun x => let p := x in k))
  (at level 61, p pattern, m at next level, right associativity).

(** A [for] loop over a list whose body may raise and which updates the
    loop-carried state [st] (the list [ret] being built). *)
Fixpoint for_each {A S : Type} (body : S -> A -> result S) (xs : list A) (st : S)
  : result S :=
  match xs with
  | [] => Return st
  | x :: xs' => st' <- body st x ;; for_each body xs' st'
  end.

(** ** The Python built-ins the module calls *)

Module Py.

(** The double-quote character, for messages that contain one. *)
Definition dq : string := String "034"%char EmptyString.

(** The piece under construction is the head of the list. *)
Definition push_char (c : ascii) (pieces : list string) : list string :=
  match pieces with
  | [] => [String c EmptyString]
  | p :: ps => String c p :: ps
  end.

(** [s.split(sep, maxsplit)] for a one-character separator: at most
    [maxsplit] splits, leftmost first; [None] is Python's default (-1, no
    limit).  The empty string yields one empty piece. *)
Fixpoint split (sep : ascii) (maxsplit : option nat) (s : string) : list string :=
  match s with
  | EmptyString => [EmptyString]
  | String c rest =>
      if (c =? sep)%char then
        match maxsplit with
        | None => EmptyString :: split sep None rest
        | Some (S n) => EmptyString :: split sep (Some n) rest
        | Some O => push_char c (split sep maxsplit rest)
        end
      else push_char c (split sep maxsplit rest)
  end.

(** [str.lower] on a byte string: only the ASCII capitals change. *)
Definition lower_char (c : ascii) : ascii :=
  if (("A" <=? c) && (c <=? "Z"))%char
  then ascii_of_nat (nat_of_ascii c + 32)
  else c.

Fixpoint lower (s : string) : string :=
  match s with
  | EmptyString => EmptyString
  | String c rest => String (lower_char c) (lower rest)
  end.

(** [sep.join(pieces)] *)
Definition join (sep : string) (pieces : list string) : string :=
  String.concat sep pieces.

(** [l[lo:hi]] for non-negative bounds; never raises. *)
Definition slice {A : Type} (lo hi : nat) (l : list A) : list A :=
  firstn (hi - lo) (skipn lo l).

(** [l[i]] for a non-negative index. *)
Definition getitem {A : Type} (l : list A) (i : nat) : result A :=
  match nth_error l i with
  | Some v => Return v
  | None => Raise IndexError
  end.

(** [a or b] on strings: the empty string is false. *)
Definition or_ (a b : string) : string :=
  match a with
  | EmptyString => b
  | _ => a
  end.

(** [x in t] for a tuple of strings. *)
Definition contains (t : list string) (x : string) : bool :=
  existsb (String.eqb x) t.

(** [c in s] for a one-character [c]. *)
Fixpoint has_char (c : ascii) (s : string) : bool :=
  match s with
  | EmptyString => false
  | String c' rest => (c' =? c)%char || has_char c rest
  end.

(** [str(x)] of a byte string is the string itself. *)
Definition str (x : string) : string := x.

(** [gettext.gettext] with no catalogue installed returns the message id. *)
Definition gettext (msgid : string) : string := msgid.

End Py.

(** ** SearchCommand: the static parsing methods *)

Definition key_value_message : string :=
  "key and value must be separated by " ++ Py.dq ++ "=" ++ Py.dq.

Definition field_name_message : string :=
  "field name must be specified".

Definition direction_message : string :=
  "direction must be " ++ Py.dq ++ "ascending" ++ Py.dq ++ " or "
    ++ Py.dq ++ "descending" ++ Py.dq.

Definition directions : list string := ["ascending"; "descending"].

(** [_parse_key_value]: each element of the result is the two-element list
    [components] produced by [arg.split('=', 1)]. *)
Definition _parse_key_value (args : list string) : result (list (list string)) :=
  for_each
    (fun ret arg =>
       let components := Py.split "="%char (Some 1) arg in
       if negb (List.length components =? 2)%nat
       then Raise (ValueError key_value_message)
       else Return (ret ++ [components]))
    args [].

Definition _explode_sort_arg_pieces (sort_arg : string) : result (string * string) :=
  let pieces := Py.split ","%char None (Py.lower sort_arg) in
  field_name <- Py.getitem pieces 0 ;;
  let direction := Py.or_ (Py.join "" (Py.slice 1 2 pieces)) "ascending" in
  Return (field_name, direction).

Definition _validate_sort (sort_args : list string) : result unit :=
  for_each
    (fun (_ : unit) arg =>
       '(field_name, direction) <- _explode_sort_arg_pieces (Py.str arg) ;;
       if (String.length field_name =? 0)%nat
       then Raise (ValueError (Py.gettext field_name_message))
       else if negb (Py.contains directions direction)
       then Raise (ValueError (Py.gettext direction_message))
       else Return tt)
    sort_args tt.

Definition _parse_sort (sort_args : list string) : result (list (string * string)) :=
  for_each
    (fun ret value =>
       '(field_name, direction) <- _explode_sort_arg_pieces value ;;
       if negb (Py.contains directions direction)
       then Raise CommandUsage
       else Return (ret ++ [(field_name, direction)]))
    sort_args [].

(** ** The command classes and their options *)

(** The callables handed to an option as [parse_func] and [validate_func];
    only their identity matters to the option set. *)
Inductive parse_func_t : Type :=
| json_loads
| parse_key_value_func
| int_func
| parse_sort_func
| split_comma_func
| parsers_iso8601.

Inductive validate_func_t : Type :=
| positive_int_validator
| non_negative_int_validator
| validate_sort_func
| str_func.

(** The callable run when a command executes; opaque to this module. *)
Inductive method_t : Type :=
| Method (id : nat).

(** Modelled from the spec: [PulpCliOption] (pulp.client.extensions) is not
    part of this file.  It is a record of the constructor's arguments; the
    flag table fixes the fields: name, arity (repeatable or single), whether
    required, aliases, and the parse and validation callables. *)
Record PulpCliOption : Type := mkOption {
  name : string;
  description : string;
  required : bool;
  allow_multiple : bool;
  aliases : list string;
  validate_func : option validate_func_t;
  parse_func : option parse_func_t
}.

(** Modelled from the spec: [OptionGroup] (okaara.cli) is not part of this
    file.  A named group of options, added or left out as a unit. *)
Record OptionGroup : Type := mkGroup {
  group_name : string;
  group_description : string;
  group_options : list PulpCliOption
}.

(** Modelled from the spec: [PulpCliCommand] (pulp.client.extensions, on
    okaara's [Command]) is not part of this file.  A command holds its own
    options, in registration order, and its option groups. *)
Record PulpCliCommand : Type := mkCommand {
  command_name : string;
  command_description : string;
  method : method_t;
  options : list PulpCliOption;
  option_groups : list OptionGroup
}.

(** Modelled from the spec: option registration appends to the command's
    options. *)
Definition add_option (option : PulpCliOption) (self : PulpCliCommand)
  : PulpCliCommand :=
  mkCommand (command_name self) (command_description self) (method self)
            (options self ++ [option]) (option_groups self).

(** Modelled from the spec: [create_option] builds the option and registers
    it. *)
Definition create_option (name description : string) (aliases : list string)
    (required allow_multiple : bool) (parse_func : option parse_func_t)
    (self : PulpCliCommand) : PulpCliCommand :=
  add_option
    (mkOption name description required allow_multiple aliases None parse_func)
    self.

(** Modelled from the spec: a group is registered with the command as a
    unit. *)
Definition add_option_group (group : OptionGroup) (self : PulpCliCommand)
  : PulpCliCommand :=
  mkCommand (command_name self) (command_description self) (method self)
            (options self) (option_groups self ++ [group]).

Definition group_add_option (option : PulpCliOption) (group : OptionGroup)
  : OptionGroup :=
  mkGroup (group_name group) (group_description group)
          (group_options group ++ [option]).

(** Modelled from the spec: the option set of a command is its own options
    together with those of its groups. *)
Definition option_set (self : PulpCliCommand) : list PulpCliOption :=
  options self ++ flat_map group_options (option_groups self).

Definition option_names (self : PulpCliCommand) : list string :=
  map name (option_set self).

Definition has_option (n : string) (self : PulpCliCommand) : bool :=
  existsb (fun opt => String.eqb (name opt) n) (option_set self).

(** The module's help texts, newlines already replaced by spaces. *)
Definition _LIMIT_DESCRIPTION : string := "max number of items to return".
Definition _SKIP_DESCRIPTION : string := "number of items to skip".
Definition _FILTERS_DESCRIPTION : string :=
  "filters provided as JSON in mongo syntax. This will override any options specified from the 'Filters' section below.".
Definition _FIELDS_DESCRIPTION : string :=
  "comma-separated list of resource fields. Do not include spaces. Default is all fields.".
Definition _SORT_DESCRIPTION : string :=
  "field name, a comma, and either the word " ++ Py.dq ++ "ascending" ++ Py.dq
  ++ " or " ++ Py.dq ++ "descending" ++ Py.dq
  ++ ". The comma and direction are optional, and the direction defaults to ascending. Do not put a space before or after the comma. For multiple fields, use this option multiple times. Each one will be applied in the order supplied.".
Definition _SEARCH_DESCRIPTION : string :=
  "search items while optionally specifying sort, limit, skip, and requested fields".
Definition _USAGE : string :=
  "These are basic filtering options that will be AND'd together. These will be ignored if --filters= is specified. Any option may be specified multiple times. The value for each option should be a field name and value to match against, specified as "
  ++ Py.dq ++ "name=value" ++ Py.dq
  ++ ". Example: $ pulp-admin repo search --gt='content_unit_count=0' ".

(** The keyword arguments a caller may pass to a command constructor; [None]
    is a keyword left out.  The model covers calls that pass [method]
    positionally and everything else by keyword. *)
Record kwargs : Type := mkKwargs {
  kw_name : option string;
  kw_description : option string;
  kw_filtering : option bool;
  kw_criteria : option bool
}.

Definition no_kwargs : kwargs := mkKwargs None None None None.

(** [kwargs.pop(key, None) or default] *)
Definition pop_or (v : option string) (default : string) : string :=
  match v with
  | Some s => Py.or_ s default
  | None => default
  end.

(** A keyword parameter with a default value. *)
Definition keyword (v : option bool) (default : bool) : bool :=
  match v with
  | Some b => b
  | None => default
  end.

(** One of the nine per-operator filter options. *)
Definition filter_option (n m : string) : PulpCliOption :=
  mkOption n (Py.gettext m) false true [] None (Some parse_key_value_func).

Definition add_filtering (self : PulpCliCommand) : PulpCliCommand :=
  let self :=
    add_option (mkOption "--filters" _FILTERS_DESCRIPTION false false [] None
                         (Some json_loads)) self in
  let filter_group := mkGroup "Filters" (Py.gettext _USAGE) [] in
  let filter_group :=
    group_add_option
      (filter_option "--str-eq"
         "match where a named attribute equals a string value exactly.")
      filter_group in
  let filter_group :=
    group_add_option
      (filter_option "--int-eq"
         "match where a named attribute equals an int value exactly.")
      filter_group in
  let filter_group :=
    group_add_option
      (filter_option "--match"
         "for a named attribute, match a regular expression using the mongo regex engine.")
      filter_group in
  let filter_group :=
    group_add_option
      (filter_option "--in"
         "for a named attribute, match where value is in the provided list of values, expressed as one row of CSV")
      filter_group in
  let filter_group :=
    group_add_option
      (filter_option "--not"
         "field and expression to omit when determining units for inclusion")
      filter_group in
  let filter_group :=
    group_add_option
      (filter_option "--gt"
         "matches resources whose value for the specified field is greater than the given value")
      filter_group in
  let filter_group :=
    group_add_option
      (filter_option "--gte"
         "matches resources whose value for the specified field is greater than or equal to the given value")
      filter_group in
  let filter_group :=
    group_add_option
      (filter_option "--lt"
         "matches resources whose value for the specified field is less than the given value")
      filter_group in
  let filter_group :=
    group_add_option
      (filter_option "--lte"
         "matches resources whose value for the specified field is less than or equal to the given value")
      filter_group in
  add_option_group filter_group self.

Definition add_full_criteria_options (self : PulpCliCommand) : PulpCliCommand :=
  let self :=
    add_option (mkOption "--limit" _LIMIT_DESCRIPTION false false []
                         (Some positive_int_validator) (Some int_func)) self in
  let self :=
    add_option (mkOption "--skip" _SKIP_DESCRIPTION false false []
                         (Some non_negative_int_validator) (Some int_func)) self in
  let self :=
    add_option (mkOption "--sort" _SORT_DESCRIPTION false true []
                         (Some validate_sort_func) (Some parse_sort_func)) self in
  add_option (mkOption "--fields" _FIELDS_DESCRIPTION false false []
                       (Some str_func) (Some split_comma_func)) self.

(** [SearchCommand.__init__(method, filtering=True, criteria=True, **kwargs)] *)
Definition SearchCommand (m : method_t) (kw : kwargs) : PulpCliCommand :=
  let filtering := keyword (kw_filtering kw) true in
  let criteria := keyword (kw_criteria kw) true in
  let name := pop_or (kw_name kw) "search" in
  let description := pop_or (kw_description kw) _SEARCH_DESCRIPTION in
  let self := mkCommand name description m [] [] in
  let self := if filtering then add_filtering self else self in
  if criteria then add_full_criteria_options self else self.

Definition UnitSearchCommand (m : method_t) (kw : kwargs) : PulpCliCommand :=
  let self := SearchCommand m kw in
  let self :=
    add_option
      (mkOption "--repo-id"
                (Py.gettext "identifies the repository to search within")
                true false [] None None) self in
  let self :=
    create_option "--after"
      (Py.gettext "matches units added to the source repository on or after the given time; specified as a timestamp in iso8601 format")
      ["-a"] false false (Some parsers_iso8601) self in
  create_option "--before"
    (Py.gettext "matches units added to the source repository on or before the given time; specified as a timestamp in iso8601 format")
    ["-b"] false false (Some parsers_iso8601) self.

Definition set_options (opts : list PulpCliOption) (self : PulpCliCommand)
  : PulpCliCommand :=
  mkCommand (command_name self) (command_description self) (method self)
            opts (option_groups self).

Definition UnitCopyCommand (m : method_t) (kw : kwargs) : PulpCliCommand :=
  let kw :=
    mkKwargs (kw_name kw) (kw_description kw) (kw_filtering kw) (Some false) in
  let self := UnitSearchCommand m kw in
  let self :=
    set_options
      (filter (fun opt => negb (String.eqb (name opt) "--repo-id"))
              (options self)) self in
  let self :=
    create_option "--from-repo-id"
      (Py.gettext "source repository from which units will be copied")
      ["-f"] true false None self in
  create_option "--to-repo-id"
    (Py.gettext "destination repository to copy units into")
    ["-t"] true false None self.

Definition OPTIONS_TO_REMOVE : list string := ["--sort"; "--fields"].

Definition UnitSearchAllCommand (m : method_t) (kw : kwargs) : PulpCliCommand :=
  let kw :=
    mkKwargs (kw_name kw) (kw_description kw) (Some false) (kw_criteria kw) in
  let self := UnitSearchCommand m kw in
  set_options
    (filter (fun opt => negb (Py.contains OPTIONS_TO_REMOVE (name opt)))
            (options self)) self.

(** ** Loop bodies and specification predicates *)

(** The bodies of the three loops, named so that the loops can be unfolded
    one iteration at a time. *)
Definition key_value_body (ret : list (list string)) (arg : string)
  : result (list (list string)) :=
  let components := Py.split "="%char (Some 1) arg in
  if negb (List.length components =? 2)%nat
  then Raise (ValueError key_value_message)
  else Return (ret ++ [components]).

Definition validate_sort_body (_ : unit) (arg : string) : result unit :=
  '(field_name, direction) <- _explode_sort_arg_pieces (Py.str arg) ;;
  if (String.length field_name =? 0)%nat
  then Raise (ValueError (Py.gettext field_name_message))
  else if negb (Py.contains directions direction)
  then Raise (ValueError (Py.gettext direction_message))
  else Return tt.

Definition parse_sort_body (ret : list (string * string)) (value : string)
  : result (list (string * string)) :=
  '(field_name, direction) <- _explode_sort_arg_pieces value ;;
  if negb (Py.contains directions direction)
  then Raise CommandUsage
  else Return (ret ++ [(field_name, direction)]).

(** The pair a well-formed filter term stands for. *)
Definition is_key_value (arg : string) (pair : list string) : Prop :=
  exists field value,
    pair = [field; value]
    /\ arg = (field ++ "=" ++ value)%string
    /\ Py.has_char "=" field = false.

(** A token that validation turns down: its field name is empty or its
    direction is neither legal word. *)
Definition rejected (arg : string) : Prop :=
  exists field_name direction,
    _explode_sort_arg_pieces arg = Return (field_name, direction)
    /\ (field_name = EmptyString
        \/ (direction <> "ascending" /\ direction <> "descending")).

(** A token that validation lets through. *)
Definition accepted (arg : string) : Prop :=
  exists field_name direction,
    _explode_sort_arg_pieces arg = Return (field_name, direction)
    /\ field_name <> EmptyString
    /\ (direction = "ascending" \/ direction = "descending").

(** What sort parsing makes of one token whose direction is legal. *)
Definition is_sort_pair (value : string) (pair : string * string) : Prop :=
  _explode_sort_arg_pieces value = Return pair
  /\ (snd pair = "ascending" \/ snd pair = "descending").

(** The flags of the two option groups, as the flag table lists them. *)
Definition filter_flags : list string :=
  ["--str-eq"; "--int-eq"; "--match"; "--in"; "--not";
   "--gt"; "--gte"; "--lt"; "--lte"].

Definition criteria_flags : list string :=
  ["--limit"; "--skip"; "--sort"; "--fields"].

(** ** Further definitions: the [--fields] parser and derived views *)

(** The [parse_func] of [--fields]: [lambda x: x.split(',')]. *)
Definition fields_parse_func (x : string) : list string :=
  Py.split ","%char None x.

(** [s.count(c)] for a one-character [c]. *)
Fixpoint count_char (c : ascii) (s : string) : nat :=
  match s with
  | EmptyString => 0
  | String c' rest => (if (c' =? c)%char then 1 else 0) + count_char c rest
  end.

(** A parsed sort pair written back as a [--sort] token. *)
Definition sort_token (pair : string * string) : string :=
  (fst pair ++ "," ++ snd pair)%string.

(** The names of the options a user must give. *)
Definition required_names (self : PulpCliCommand) : list string :=
  map name (filter required (option_set self)).

(** The options that sit in a group of the command. *)
Definition grouped_options (self : PulpCliCommand) : list PulpCliOption :=
  flat_map group_options (option_groups self).

(** Every alias of every option of the command. *)
Definition option_aliases (self : PulpCliCommand) : list string :=
  flat_map aliases (option_set self).

(** No string occurs twice. *)
Fixpoint distinct (l : list string) : bool :=
  match l with
  | [] => true
  | x :: xs => negb (Py.contains xs x) && distinct xs
  end.

(** The four command classes of the module, and the three that are scoped to
    a repository. *)
Definition unit_variants : list (method_t -> kwargs -> PulpCliCommand) :=
  [UnitSearchCommand; UnitCopyCommand; UnitSearchAllCommand].

Definition command_variants : list (method_t -> kwargs -> PulpCliCommand) :=
  SearchCommand :: unit_variants.

(** What the flag table records of an option besides its name. *)
Definition option_shape (opt : PulpCliOption)
  : list string * bool * bool * option parse_func_t :=
  (aliases opt, required opt, allow_multiple opt, parse_func opt).

Definition find_option (n : string) (self : PulpCliCommand)
  : option PulpCliOption :=
  find (fun opt => String.eqb (name opt) n) (option_set self).

(** * Properties *)

(** ** Splitting *)

Section Split.

Variable sep : ascii.

Lemma push_char_cons c p ps :
  Py.push_char c (p :: ps) = String c p :: ps.
Proof. reflexivity. Qed.

Lemma split_not_nil m s : Py.split sep m s <> [].
Proof.
  destruct s as [|c rest]; simpl; [discriminate|].
  destruct (c =? sep)%char; [destruct m as [[|n]|]|]; try discriminate;
    destruct (Py.split sep _ rest); discriminate.
Qed.

Lemma split_zero s : Py.split sep (Some 0) s = [s].
Proof.
  induction s as [|c rest IH]; simpl; [reflexivity|].
  rewrite IH. destruct (c =? sep)%char; reflexivity.
Qed.

Lemma split_without_sep m s :
  Py.has_char sep s = false -> Py.split sep m s = [s].
Proof.
  induction s as [|c rest IH]; simpl; intros H; [reflexivity|].
  apply orb_false_elim in H as [Hc Hrest].
  rewrite Hc, (IH Hrest). reflexivity.
Qed.

Lemma split_limited_at_first n f v :
  Py.has_char sep f = false ->
  Py.split sep (Some (S n)) (f ++ String sep v)%string = f :: Py.split sep (Some n) v.
Proof.
  induction f as [|c rest IH]; simpl; intros H.
  - rewrite Ascii.eqb_refl. reflexivity.
  - apply orb_false_elim in H as [Hc Hrest].
    rewrite Hc, (IH Hrest). reflexivity.
Qed.

Lemma split_unlimited_at_first f v :
  Py.has_char sep f = false ->
  Py.split sep None (f ++ String sep v)%string = f :: Py.split sep None v.
Proof.
  induction f as [|c rest IH]; simpl; intros H.
  - rewrite Ascii.eqb_refl. reflexivity.
  - apply orb_false_elim in H as [Hc Hrest].
    rewrite Hc, (IH Hrest). reflexivity.
Qed.

(** A string that contains [sep] breaks at its first occurrence. *)
Lemma has_char_first s :
  Py.has_char sep s = true ->
  exists f v, s = (f ++ String sep v)%string /\ Py.has_char sep f = false.
Proof.
  induction s as [|c rest IH]; simpl; intros H; [discriminate|].
  destruct (c =? sep)%char eqn:Hc.
  - apply Ascii.eqb_eq in Hc. subst c.
    exists EmptyString, rest. split; reflexivity.
  - destruct (IH H) as (f & v & -> & Hf).
    exists (String c f), v. split; [reflexivity|].
    simpl. rewrite Hc. exact Hf.
Qed.

Lemma has_char_app f v : Py.has_char sep (f ++ String sep v)%string = true.
Proof.
  induction f as [|c rest IH]; simpl.
  - rewrite Ascii.eqb_refl. reflexivity.
  - rewrite IH. apply orb_true_r.
Qed.

(** The break at the first [sep] is unique. *)
Lemma first_break_unique f v f' v' :
  (f ++ String sep v = f' ++ String sep v')%string ->
  Py.has_char sep f = false -> Py.has_char sep f' = false ->
  f = f' /\ v = v'.
Proof.
  revert f'. induction f as [|c rest IH]; intros [|c' rest']; simpl;
    intros E Hf Hf'.
  - injection E as ->. split; reflexivity.
  - injection E as <- _. rewrite Ascii.eqb_refl in Hf'. discriminate.
  - injection E as -> _. rewrite Ascii.eqb_refl in Hf. discriminate.
  - injection E as -> E.
    apply orb_false_elim in Hf as [_ Hf].
    apply orb_false_elim in Hf' as [_ Hf'].
    destruct (IH _ E Hf Hf') as [-> ->]. split; reflexivity.
Qed.

End Split.

(** ** The filter-term parser *)

Lemma _parse_key_value_loop args :
  _parse_key_value args = for_each key_value_body args [].
Proof. reflexivity. Qed.

Lemma key_value_body_with_equals ret arg :
  Py.has_char "=" arg = true ->
  exists field value,
    key_value_body ret arg = Return (ret ++ [[field; value]])
    /\ arg = (field ++ "=" ++ value)%string
    /\ Py.has_char "=" field = false.
Proof.
  intros H. destruct (has_char_first _ _ H) as (f & v & -> & Hf).
  exists f, v. unfold key_value_body.
  rewrite (split_limited_at_first _ 0 f v Hf), split_zero. simpl.
  repeat split; auto.
Qed.

Lemma key_value_body_without_equals ret arg :
  Py.has_char "=" arg = false ->
  key_value_body ret arg = Raise (ValueError key_value_message).
Proof.
  intros H. unfold key_value_body.
  rewrite (split_without_sep _ _ _ H). reflexivity.
Qed.

Lemma key_value_loop_ok args : forall acc,
  Forall (fun arg => Py.has_char "=" arg = true) args ->
  exists ret,
    for_each key_value_body args acc = Return (acc ++ ret)
    /\ Forall2 is_key_value args ret.
Proof.
  induction args as [|arg args IH]; intros acc Hall.
  - exists []. rewrite app_nil_r. split; constructor.
  - inversion Hall as [|? ? Harg Hrest]; subst.
    destruct (key_value_body_with_equals acc arg Harg) as (f & v & Hb & Hsplit & Hf).
    destruct (IH (acc ++ [[f; v]]) Hrest) as (ret & Hloop & Hpairs).
    exists ([f; v] :: ret). simpl. rewrite Hb. simpl. rewrite Hloop.
    rewrite <- app_assoc. split; [reflexivity|].
    constructor; [|exact Hpairs]. exists f, v. auto.
Qed.

Lemma key_value_loop_raises args : forall acc e,
  for_each key_value_body args acc = Raise e ->
  e = ValueError key_value_message
  /\ Exists (fun arg => Py.has_char "=" arg = false) args.
Proof.
  induction args as [|arg args IH]; intros acc e H; simpl in H; [discriminate|].
  destruct (Py.has_char "=" arg) eqn:Harg.
  - destruct (key_value_body_with_equals acc arg Harg) as (f & v & Hb & _).
    rewrite Hb in H. simpl in H.
    destruct (IH _ _ H) as [He Hex]. split; [exact He|]. now right.
  - rewrite (key_value_body_without_equals acc arg Harg) in H. simpl in H.
    injection H as <-. split; [reflexivity|]. now left.
Qed.

Lemma key_value_loop_missing args : forall acc,
  Exists (fun arg => Py.has_char "=" arg = false) args ->
  for_each key_value_body args acc = Raise (ValueError key_value_message).
Proof.
  induction args as [|arg args IH]; intros acc H; [inversion H|].
  simpl. destruct (Py.has_char "=" arg) eqn:Harg.
  - destruct (key_value_body_with_equals acc arg Harg) as (f & v & Hb & _).
    rewrite Hb. simpl. apply IH.
    inversion H as [? ? Hbad|? ? Hlater]; subst; [congruence|exact Hlater].
  - rewrite (key_value_body_without_equals acc arg Harg). reflexivity.
Qed.

(** C1: when every element contains an '=', filter-term parsing returns one
    pair per element, in input order; the pair's field is the text before
    the first '=' and its value everything after it, so [a=b=c] yields
    [(a, b=c)]. *)
Theorem parse_key_value_splits_on_first_equals :
  (forall args,
      Forall (fun arg => Py.has_char "=" arg = true) args ->
      exists ret,
        _parse_key_value args = Return ret
        /\ List.length ret = List.length args
        /\ Forall2 is_key_value args ret)
  /\ _parse_key_value ["a=b=c"] = Return [["a"; "b=c"]].
Proof.
  split; [|reflexivity].
  intros args Hall. rewrite _parse_key_value_loop.
  destruct (key_value_loop_ok args [] Hall) as (ret & Hloop & Hpairs).
  exists ret. split; [exact Hloop|]. split; [|exact Hpairs].
  symmetry. eapply Forall2_length; eassumption.
Qed.

Lemma parse_key_value_splits_on_first_equals_witness :
  Forall (fun arg => Py.has_char "=" arg = true) ["a=b=c"; "k=v"]
  /\ exists ret,
       _parse_key_value ["a=b=c"; "k=v"] = Return ret
       /\ List.length ret = 2
       /\ Forall2 is_key_value ["a=b=c"; "k=v"] ret.
Proof.
  assert (H : Forall (fun arg => Py.has_char "=" arg = true) ["a=b=c"; "k=v"]).
  { repeat constructor. }
  split; [exact H|].
  exact (proj1 parse_key_value_splits_on_first_equals ["a=b=c"; "k=v"] H).
Defined.

(** C5: filter-term parsing fails, with the separator message, exactly when
    some element contains no '='; that is its only failure, and a failing
    call returns no list at all. *)
Theorem parse_key_value_fails_iff_no_equals :
  (forall args,
      _parse_key_value args = Raise (ValueError key_value_message)
      <-> Exists (fun arg => Py.has_char "=" arg = false) args)
  /\ (forall args e,
         _parse_key_value args = Raise e -> e = ValueError key_value_message)
  /\ (forall args,
         Exists (fun arg => Py.has_char "=" arg = false) args ->
         forall ret, _parse_key_value args <> Return ret)
  /\ _parse_key_value ["novalue"] = Raise (ValueError key_value_message).
Proof.
  repeat split.
  - intros H. rewrite _parse_key_value_loop in H.
    apply (key_value_loop_raises _ _ _ H).
  - intros H. rewrite _parse_key_value_loop. now apply key_value_loop_missing.
  - intros args e H. rewrite _parse_key_value_loop in H.
    apply (key_value_loop_raises _ _ _ H).
  - intros args H ret. rewrite _parse_key_value_loop.
    rewrite (key_value_loop_missing _ [] H). discriminate.
Qed.

Lemma parse_key_value_fails_iff_no_equals_witness :
  Exists (fun arg => Py.has_char "=" arg = false) ["a=b"; "novalue"; "c=d"]
  /\ _parse_key_value ["a=b"; "novalue"; "c=d"]
     = Raise (ValueError key_value_message).
Proof.
  assert (H : Exists (fun arg => Py.has_char "=" arg = false)
                     ["a=b"; "novalue"; "c=d"]).
  { right. left. reflexivity. }
  split; [exact H|].
  exact (proj2 (proj1 parse_key_value_fails_iff_no_equals _) H).
Defined.

(** ** Decomposing one sort token *)

Lemma explode_total sort_arg :
  exists field_name direction,
    _explode_sort_arg_pieces sort_arg = Return (field_name, direction).
Proof.
  unfold _explode_sort_arg_pieces.
  destruct (Py.split "," None (Py.lower sort_arg)) as [|p ps] eqn:E.
  - now apply split_not_nil in E.
  - simpl. eauto.
Qed.

Lemma explode_without_comma sort_arg :
  Py.has_char "," (Py.lower sort_arg) = false ->
  _explode_sort_arg_pieces sort_arg = Return (Py.lower sort_arg, "ascending").
Proof.
  intros H. unfold _explode_sort_arg_pieces.
  rewrite (split_without_sep _ _ _ H). reflexivity.
Qed.

Lemma explode_two_components sort_arg f d :
  Py.lower sort_arg = (f ++ "," ++ d)%string ->
  Py.has_char "," f = false ->
  Py.has_char "," d = false ->
  _explode_sort_arg_pieces sort_arg = Return (f, Py.or_ d "ascending").
Proof.
  intros E Hf Hd. unfold _explode_sort_arg_pieces. rewrite E.
  change (f ++ "," ++ d)%string with (f ++ String "," d)%string.
  rewrite (split_unlimited_at_first _ f d Hf), (split_without_sep _ _ _ Hd).
  simpl. reflexivity.
Qed.

Lemma explode_more_components sort_arg f d rest :
  Py.lower sort_arg = (f ++ "," ++ d ++ "," ++ rest)%string ->
  Py.has_char "," f = false ->
  Py.has_char "," d = false ->
  _explode_sort_arg_pieces sort_arg = Return (f, Py.or_ d "ascending").
Proof.
  intros E Hf Hd. unfold _explode_sort_arg_pieces. rewrite E.
  change (f ++ "," ++ d ++ "," ++ rest)%string
    with (f ++ String "," (d ++ String "," rest))%string.
  rewrite (split_unlimited_at_first _ f _ Hf).
  rewrite (split_unlimited_at_first _ d rest Hd).
  destruct (Py.split "," None rest) as [|p ps] eqn:Erest.
  - now apply split_not_nil in Erest.
  - simpl. destruct d; reflexivity.
Qed.

Lemma or_nonempty d default : d <> EmptyString -> Py.or_ d default = d.
Proof. destruct d; [congruence|reflexivity]. Qed.

Lemma or_default d default :
  Py.or_ d default = if (d =? "")%string then default else d.
Proof. destruct d; reflexivity. Qed.

(** Every string has no comma, or one comma, or breaks at its first two
    commas. *)
Lemma comma_shapes s :
  Py.has_char "," s = false
  \/ (exists f d,
         s = (f ++ "," ++ d)%string
         /\ Py.has_char "," f = false /\ Py.has_char "," d = false)
  \/ (exists f d rest,
         s = (f ++ "," ++ d ++ "," ++ rest)%string
         /\ Py.has_char "," f = false /\ Py.has_char "," d = false).
Proof.
  destruct (Py.has_char "," s) eqn:Hs; [right|now left].
  destruct (has_char_first _ _ Hs) as (f & v & -> & Hf).
  destruct (Py.has_char "," v) eqn:Hv.
  - right. destruct (has_char_first _ _ Hv) as (d & rest & -> & Hd).
    exists f, d, rest. auto.
  - left. exists f, v. auto.
Qed.

(** C2: a sort token is lower-cased whole and split on ','; the first
    component is the field name, the second alone gives the direction
    (the default [ascending] when it is empty), any later component is
    ignored whatever it holds, and a token with no second component gets
    the direction [ascending].  The three shapes cover every token.  [Name]
    decomposes to [(name, ascending)], and [a,,descending] to
    [(a, ascending)]. *)
Theorem explode_sort_arg_pieces_components :
  (forall sort_arg,
      Py.has_char "," (Py.lower sort_arg) = false ->
      _explode_sort_arg_pieces sort_arg
      = Return (Py.lower sort_arg, "ascending"))
  /\ (forall sort_arg f d,
         Py.lower sort_arg = (f ++ "," ++ d)%string ->
         Py.has_char "," f = false -> Py.has_char "," d = false ->
         _explode_sort_arg_pieces sort_arg
         = Return (f, if (d =? "")%string then "ascending" else d))
  /\ (forall sort_arg f d rest,
         Py.lower sort_arg = (f ++ "," ++ d ++ "," ++ rest)%string ->
         Py.has_char "," f = false -> Py.has_char "," d = false ->
         _explode_sort_arg_pieces sort_arg
         = Return (f, if (d =? "")%string then "ascending" else d))
  /\ (forall sort_arg,
         Py.has_char "," (Py.lower sort_arg) = false
         \/ (exists f d,
                Py.lower sort_arg = (f ++ "," ++ d)%string
                /\ Py.has_char "," f = false /\ Py.has_char "," d = false)
         \/ (exists f d rest,
                Py.lower sort_arg = (f ++ "," ++ d ++ "," ++ rest)%string
                /\ Py.has_char "," f = false /\ Py.has_char "," d = false))
  /\ _explode_sort_arg_pieces "Name" = Return ("name", "ascending")
  /\ _explode_sort_arg_pieces "a,,descending" = Return ("a", "ascending").
Proof.
  split; [exact explode_without_comma|].
  split; [|split; [|split; [|split; reflexivity]]].
  - intros sort_arg f d E Hf Hd.
    rewrite (explode_two_components _ _ _ E Hf Hd), or_default.
    reflexivity.
  - intros sort_arg f d rest E Hf Hd.
    rewrite (explode_more_components _ _ _ _ E Hf Hd), or_default.
    reflexivity.
  - intros sort_arg. apply comma_shapes.
Qed.

Lemma explode_sort_arg_pieces_components_witness :
  _explode_sort_arg_pieces "Created" = Return ("created", "ascending")
  /\ _explode_sort_arg_pieces "Name,Descending" = Return ("name", "descending")
  /\ _explode_sort_arg_pieces "Name,Descending,Ascending,x"
     = Return ("name", "descending")
  /\ _explode_sort_arg_pieces "Name,,Descending" = Return ("name", "ascending").
Proof.
  destruct explode_sort_arg_pieces_components as (H1 & H2 & H3 & _).
  split; [|split; [|split]].
  - apply (H1 "Created"). reflexivity.
  - apply (H2 "Name,Descending" "name" "descending"); reflexivity.
  - apply (H3 "Name,Descending,Ascending,x" "name" "descending" "ascending,x");
      reflexivity.
  - apply (H3 "Name,,Descending" "name" "" "descending"); reflexivity.
Defined.

(** ** Sort validation and sort parsing *)

Lemma _validate_sort_loop sort_args :
  _validate_sort sort_args = for_each validate_sort_body sort_args tt.
Proof. reflexivity. Qed.

Lemma _parse_sort_loop sort_args :
  _parse_sort sort_args = for_each parse_sort_body sort_args [].
Proof. reflexivity. Qed.

Lemma contains_directions d :
  Py.contains directions d = true <-> d = "ascending" \/ d = "descending".
Proof.
  unfold Py.contains, directions. simpl.
  rewrite orb_false_r, orb_true_iff, !String.eqb_eq. reflexivity.
Qed.

Lemma not_contains_directions d :
  Py.contains directions d = false <-> d <> "ascending" /\ d <> "descending".
Proof.
  unfold Py.contains, directions. simpl.
  rewrite orb_false_r, orb_false_iff, !String.eqb_neq. reflexivity.
Qed.

Lemma length_zero_empty s : (String.length s =? 0)%nat = true <-> s = EmptyString.
Proof. destruct s; simpl; split; (reflexivity || discriminate). Qed.

Lemma validate_sort_body_cases arg :
  (validate_sort_body tt arg = Return tt /\ accepted arg)
  \/ ((exists msg, validate_sort_body tt arg = Raise (ValueError msg))
      /\ rejected arg).
Proof.
  destruct (explode_total arg) as (f & d & E).
  unfold validate_sort_body, Py.str. rewrite E. cbn [bind].
  destruct (String.length f =? 0)%nat eqn:Hf.
  - right. split; [eauto|]. exists f, d. split; [exact E|].
    left. now apply length_zero_empty.
  - destruct (Py.contains directions d) eqn:Hd; simpl.
    + left. split; [reflexivity|]. exists f, d. split; [exact E|]. split.
      * intros ->. discriminate.
      * now apply contains_directions.
    + right. split; [eauto|]. exists f, d. split; [exact E|].
      right. now apply not_contains_directions.
Qed.

Lemma accepted_not_rejected arg : accepted arg -> rejected arg -> False.
Proof.
  intros (f & d & E & Hf & Hd) (f' & d' & E' & Hbad).
  rewrite E in E'. injection E' as <- <-.
  destruct Hbad as [->|[Ha Hb]]; [congruence|].
  destruct Hd; congruence.
Qed.

Lemma validate_loop_cases sort_args :
  (for_each validate_sort_body sort_args tt = Return tt
   /\ Forall accepted sort_args)
  \/ ((exists msg,
          for_each validate_sort_body sort_args tt = Raise (ValueError msg))
      /\ Exists rejected sort_args).
Proof.
  induction sort_args as [|arg sort_args IH]; simpl.
  - left. split; [reflexivity|constructor].
  - destruct (validate_sort_body_cases arg) as [[Hb Hacc]|[[msg Hb] Hrej]].
    + rewrite Hb. simpl.
      destruct IH as [[Hloop Hall]|[Hloop Hex]].
      * left. split; [exact Hloop|now constructor].
      * right. split; [exact Hloop|now right].
    + rewrite Hb. simpl. right. split; [eauto|now left].
Qed.

Lemma accepted_all_not_rejected sort_args :
  Forall accepted sort_args -> Exists rejected sort_args -> False.
Proof.
  intros Hall Hex. apply Exists_exists in Hex as (arg & Hin & Hrej).
  rewrite Forall_forall in Hall.
  exact (accepted_not_rejected arg (Hall arg Hin) Hrej).
Qed.

Lemma validate_passes_iff sort_args :
  _validate_sort sort_args = Return tt <-> Forall accepted sort_args.
Proof.
  rewrite _validate_sort_loop.
  destruct (validate_loop_cases sort_args) as [[Hloop Hall]|[[msg Hloop] Hex]].
  - tauto.
  - split.
    + rewrite Hloop. discriminate.
    + intros Hall. destruct (accepted_all_not_rejected _ Hall Hex).
Qed.

Lemma parse_sort_body_cases ret value :
  (exists pair,
      parse_sort_body ret value = Return (ret ++ [pair])
      /\ is_sort_pair value pair)
  \/ (parse_sort_body ret value = Raise CommandUsage
      /\ forall pair, ~ is_sort_pair value pair).
Proof.
  destruct (explode_total value) as (f & d & E).
  unfold parse_sort_body. rewrite E. cbn [bind].
  destruct (Py.contains directions d) eqn:Hd; simpl.
  - left. exists (f, d). split; [reflexivity|]. split; [exact E|].
    now apply contains_directions.
  - right. split; [reflexivity|]. intros pair [E' Hlegal].
    rewrite E in E'. injection E' as <-. simpl in Hlegal.
    apply contains_directions in Hlegal. congruence.
Qed.

Lemma parse_sort_loop_cases sort_args : forall acc,
  (exists ret,
      for_each parse_sort_body sort_args acc = Return (acc ++ ret)
      /\ Forall2 is_sort_pair sort_args ret)
  \/ (for_each parse_sort_body sort_args acc = Raise CommandUsage
      /\ forall ret, ~ Forall2 is_sort_pair sort_args ret).
Proof.
  induction sort_args as [|value sort_args IH]; intros acc; simpl.
  - left. exists []. rewrite app_nil_r. split; constructor.
  - destruct (parse_sort_body_cases acc value) as [(pair & Hb & Hp)|[Hb Hno]].
    + rewrite Hb. simpl.
      destruct (IH (acc ++ [pair])) as [(ret & Hloop & Hall)|[Hloop Hno]].
      * left. exists (pair :: ret). rewrite Hloop, <- app_assoc.
        split; [reflexivity|now constructor].
      * right. split; [exact Hloop|].
        intros ret H. inversion H; subst. eapply Hno; eassumption.
    + rewrite Hb. simpl. right. split; [reflexivity|].
      intros ret H. inversion H; subst. eapply Hno; eassumption.
Qed.

Lemma is_sort_pair_functional value p q :
  is_sort_pair value p -> is_sort_pair value q -> p = q.
Proof. intros [E _] [E' _]. congruence. Qed.

Lemma sort_pairs_functional sort_args : forall ret ret',
  Forall2 is_sort_pair sort_args ret ->
  Forall2 is_sort_pair sort_args ret' -> ret = ret'.
Proof.
  induction sort_args as [|value sort_args IH]; intros ret ret' H H';
    inversion H; inversion H'; subst; [reflexivity|].
  f_equal; [eapply is_sort_pair_functional; eassumption|now apply IH].
Qed.

Lemma parse_sort_returns_iff sort_args ret :
  _parse_sort sort_args = Return ret <-> Forall2 is_sort_pair sort_args ret.
Proof.
  rewrite _parse_sort_loop.
  destruct (parse_sort_loop_cases sort_args []) as [(r & Hloop & Hall)|[Hloop Hno]].
  - simpl in Hloop. rewrite Hloop. split.
    + intros E. injection E as <-. exact Hall.
    + intros H. f_equal. eapply sort_pairs_functional; eassumption.
  - rewrite Hloop. split; [discriminate|]. intros H. destruct (Hno _ H).
Qed.

Lemma accepted_sort_pair value :
  accepted value -> exists pair, is_sort_pair value pair.
Proof.
  intros (f & d & E & _ & Hd). exists (f, d). split; assumption.
Qed.

Lemma accepted_all_sort_pairs sort_args :
  Forall accepted sort_args -> exists ret, Forall2 is_sort_pair sort_args ret.
Proof.
  induction 1 as [|value sort_args Hacc _ (ret & IH)].
  - exists []. constructor.
  - destruct (accepted_sort_pair _ Hacc) as (pair & Hp).
    exists (pair :: ret). now constructor.
Qed.

(** C3: when sort validation of a list completes without raising, sort
    parsing of the same list returns a result and, in particular, does not
    raise [CommandUsage]. *)
Theorem validated_sort_parses_without_usage_fault sort_args :
  _validate_sort sort_args = Return tt ->
  (exists ret, _parse_sort sort_args = Return ret)
  /\ _parse_sort sort_args <> Raise CommandUsage.
Proof.
  intros Hvalid. apply validate_passes_iff in Hvalid.
  destruct (accepted_all_sort_pairs _ Hvalid) as (ret & Hpairs).
  apply parse_sort_returns_iff in Hpairs.
  split; [eauto|]. rewrite Hpairs. discriminate.
Qed.

Lemma validated_sort_parses_without_usage_fault_witness :
  _validate_sort ["b"; "A,Descending"; "c,"] = Return tt
  /\ (exists ret, _parse_sort ["b"; "A,Descending"; "c,"] = Return ret)
  /\ _parse_sort ["b"; "A,Descending"; "c,"] <> Raise CommandUsage.
Proof.
  split; [reflexivity|].
  apply (validated_sort_parses_without_usage_fault ["b"; "A,Descending"; "c,"]).
  reflexivity.
Defined.

(** C4: sort validation raises, and then always a [ValueError], exactly when
    some token has an empty extracted field name or an extracted direction
    that is neither [ascending] nor [descending]; [,ascending] and
    [name,sideways] are both turned down. *)
Theorem validate_sort_raises_iff_rejected :
  (forall sort_args,
      (exists msg, _validate_sort sort_args = Raise (ValueError msg))
      <-> Exists rejected sort_args)
  /\ (forall sort_args e,
         _validate_sort sort_args = Raise e -> exists msg, e = ValueError msg)
  /\ _validate_sort [",ascending"] = Raise (ValueError field_name_message)
  /\ _validate_sort ["name,sideways"] = Raise (ValueError direction_message).
Proof.
  split; [|split; [|split; reflexivity]].
  - intros sort_args. rewrite _validate_sort_loop.
    destruct (validate_loop_cases sort_args) as [[Hloop Hall]|[Hloop Hex]].
    + split.
      * intros [msg H]. rewrite Hloop in H. discriminate.
      * intros Hex. destruct (accepted_all_not_rejected _ Hall Hex).
    + tauto.
  - intros sort_args e H. rewrite _validate_sort_loop in H.
    destruct (validate_loop_cases sort_args) as [[Hloop _]|[[msg Hloop] _]];
      rewrite Hloop in H; [discriminate|].
    injection H as <-. eauto.
Qed.

Lemma validate_sort_raises_iff_rejected_witness :
  Exists rejected ["name"; "size,sideways"]
  /\ exists msg, _validate_sort ["name"; "size,sideways"] = Raise (ValueError msg).
Proof.
  assert (H : Exists rejected ["name"; "size,sideways"]).
  { right. left. exists "size", "sideways". split; [reflexivity|].
    right. split; discriminate. }
  split; [exact H|].
  exact (proj2 (proj1 validate_sort_raises_iff_rejected _) H).
Defined.

Lemma Forall2_nth_error {A B : Type} (R : A -> B -> Prop) xs : forall ys i x,
  Forall2 R xs ys -> nth_error xs i = Some x ->
  exists y, nth_error ys i = Some y /\ R x y.
Proof.
  induction xs as [|x' xs IH]; intros ys i x H Hi.
  - destruct i; discriminate.
  - inversion H as [|? y' ? ys' Hhead Htail]; subst.
    destruct i as [|i]; simpl in *.
    + injection Hi as <-. eauto.
    + eapply IH; eassumption.
Qed.

(** C6: sort parsing returns its pairs in the order of the tokens: the
    result has one pair per token and the i-th pair is the decomposition of
    the i-th token; [b] then [a,descending] gives [(b, ascending)] then
    [(a, descending)]. *)
Theorem parse_sort_keeps_input_order :
  (forall sort_args ret,
      _parse_sort sort_args = Return ret
      <-> Forall2 is_sort_pair sort_args ret)
  /\ (forall sort_args ret,
         _parse_sort sort_args = Return ret ->
         List.length ret = List.length sort_args
         /\ forall i value,
              nth_error sort_args i = Some value ->
              exists pair,
                nth_error ret i = Some pair
                /\ _explode_sort_arg_pieces value = Return pair)
  /\ _parse_sort ["b"; "a,descending"]
     = Return [("b", "ascending"); ("a", "descending")].
Proof.
  split; [exact parse_sort_returns_iff|]. split; [|reflexivity].
  intros sort_args ret H. apply parse_sort_returns_iff in H. split.
  - symmetry. eapply Forall2_length; eassumption.
  - intros i value Hi.
    destruct (Forall2_nth_error _ _ _ _ _ H Hi) as (pair & Hpair & Hexp & _).
    eauto.
Qed.

Lemma parse_sort_keeps_input_order_witness :
  _parse_sort ["Zeta"; "alpha,DESCENDING"; "mid,ascending,x"]
  = Return [("zeta", "ascending"); ("alpha", "descending"); ("mid", "ascending")]
  /\ exists pair,
       nth_error
         [("zeta", "ascending"); ("alpha", "descending"); ("mid", "ascending")] 1
       = Some pair
       /\ _explode_sort_arg_pieces "alpha,DESCENDING" = Return pair.
Proof.
  assert (H : _parse_sort ["Zeta"; "alpha,DESCENDING"; "mid,ascending,x"]
              = Return [("zeta", "ascending"); ("alpha", "descending");
                        ("mid", "ascending")]) by reflexivity.
  split; [exact H|].
  apply (proj2 (proj1 (proj2 parse_sort_keeps_input_order) _ _ H) 1).
  reflexivity.
Defined.



(** ** Filter terms inside a longer list *)

Lemma for_each_app {A S : Type} (body : S -> A -> result S) xs : forall ys st,
  for_each body (xs ++ ys) st
  = st' <- for_each body xs st ;; for_each body ys st'.
Proof.
  induction xs as [|x xs IH]; intros ys st; simpl; [reflexivity|].
  destruct (body st x); simpl; [apply IH|reflexivity].
Qed.

Lemma key_value_loop_acc args : forall acc,
  for_each key_value_body args acc
  = ret <- for_each key_value_body args [] ;; Return (acc ++ ret).
Proof.
  induction args as [|arg args IH]; intros acc; simpl.
  - rewrite app_nil_r. reflexivity.
  - unfold key_value_body at 1 3.
    destruct (negb (List.length (Py.split "=" (Some 1) arg) =? 2)%nat);
      simpl; [reflexivity|].
    rewrite (IH (acc ++ _)), (IH [_]).
    destruct (for_each key_value_body args []); simpl; [|reflexivity].
    rewrite <- app_assoc. reflexivity.
Qed.

(** C10: an element that begins with '=' is accepted by filter-term parsing
    and yields the pair with the empty field name and the rest as value, on
    its own and anywhere in a list whose other elements parse; [=v] yields
    [("", v)]. *)
Theorem parse_key_value_accepts_empty_field :
  (forall v, _parse_key_value [String "=" v] = Return [[EmptyString; v]])
  /\ (forall before after r1 r2 v,
         _parse_key_value before = Return r1 ->
         _parse_key_value after = Return r2 ->
         _parse_key_value (before ++ [String "=" v] ++ after)
         = Return (r1 ++ [[EmptyString; v]] ++ r2))
  /\ _parse_key_value ["=v"] = Return [[""; "v"]].
Proof.
  assert (Hone : forall v ret,
             key_value_body ret (String "=" v)
             = Return (ret ++ [[EmptyString; v]])).
  { intros v ret. unfold key_value_body. simpl. rewrite split_zero. reflexivity. }
  split; [|split; [|reflexivity]].
  - intros v. rewrite _parse_key_value_loop. simpl. rewrite Hone. reflexivity.
  - intros before after r1 r2 v H1 H2.
    rewrite _parse_key_value_loop in *.
    rewrite for_each_app, H1. simpl. rewrite Hone. simpl.
    rewrite key_value_loop_acc, H2. simpl.
    rewrite <- app_assoc. reflexivity.
Qed.

Lemma parse_key_value_accepts_empty_field_witness :
  _parse_key_value (["a=b"] ++ ["=v=w"] ++ ["c=d"])
  = Return ([["a"; "b"]] ++ [[""; "v=w"]] ++ [["c"; "d"]]).
Proof.
  apply (proj1 (proj2 parse_key_value_accepts_empty_field)
               ["a=b"] ["c=d"] [["a"; "b"]] [["c"; "d"]] "v=w");
    reflexivity.
Defined.

(** ** The option sets of the command variants *)

Lemma has_option_false n self :
  has_option n self = false <-> ~ In n (option_names self).
Proof.
  unfold has_option, option_names.
  induction (option_set self) as [|opt opts IH]; simpl.
  - tauto.
  - rewrite orb_false_iff, IH, String.eqb_neq. tauto.
Qed.

Lemma has_option_true n self :
  has_option n self = true <-> In n (option_names self).
Proof.
  unfold has_option, option_names.
  induction (option_set self) as [|opt opts IH]; simpl.
  - split; [discriminate|tauto].
  - rewrite orb_true_iff, IH, String.eqb_eq. tauto.
Qed.

Lemma required_option_found n self opt :
  find (fun o => String.eqb (name o) n) (option_set self) = Some opt ->
  In opt (option_set self) /\ name opt = n.
Proof.
  intros H. apply find_some in H as [Hin Hname].
  split; [exact Hin|now apply String.eqb_eq].
Qed.

Ltac by_option_cases kw :=
  destruct kw as [n d [[|]|] [[|]|]]; vm_compute; reflexivity.

Lemma copy_command_option_names m kw :
  option_names (UnitCopyCommand m kw)
  = if keyword (kw_filtering kw) true
    then "--filters" :: ["--after"; "--before"; "--from-repo-id"; "--to-repo-id"]
         ++ filter_flags
    else ["--after"; "--before"; "--from-repo-id"; "--to-repo-id"].
Proof. by_option_cases kw. Qed.

Lemma search_all_command_option_names m kw :
  option_names (UnitSearchAllCommand m kw)
  = if keyword (kw_criteria kw) true
    then ["--limit"; "--skip"; "--repo-id"; "--after"; "--before"]
    else ["--repo-id"; "--after"; "--before"].
Proof. by_option_cases kw. Qed.

(** C7: whatever keyword arguments the caller passes, the copy command's
    option set contains [--from-repo-id] and [--to-repo-id], both required,
    and contains none of [--repo-id], [--limit], [--skip], [--sort],
    [--fields]. *)
Theorem copy_command_option_set m kw :
  (exists opt,
      In opt (option_set (UnitCopyCommand m kw))
      /\ name opt = "--from-repo-id" /\ required opt = true)
  /\ (exists opt,
         In opt (option_set (UnitCopyCommand m kw))
         /\ name opt = "--to-repo-id" /\ required opt = true)
  /\ ~ In "--repo-id" (option_names (UnitCopyCommand m kw))
  /\ (forall n, In n criteria_flags ->
                ~ In n (option_names (UnitCopyCommand m kw))).
Proof.
  split; [|split; [|split]].
  - assert (H : exists opt,
               find (fun o => String.eqb (name o) "--from-repo-id")
                    (option_set (UnitCopyCommand m kw)) = Some opt
               /\ required opt = true).
    { destruct kw as [n d [[|]|] c]; eexists; split; reflexivity. }
    destruct H as (opt & Hfind & Hreq).
    apply required_option_found in Hfind as [Hin Hname]. eauto.
  - assert (H : exists opt,
               find (fun o => String.eqb (name o) "--to-repo-id")
                    (option_set (UnitCopyCommand m kw)) = Some opt
               /\ required opt = true).
    { destruct kw as [n d [[|]|] c]; eexists; split; reflexivity. }
    destruct H as (opt & Hfind & Hreq).
    apply required_option_found in Hfind as [Hin Hname]. eauto.
  - apply has_option_false. by_option_cases kw.
  - intros n Hn. apply has_option_false.
    unfold criteria_flags in Hn. simpl in Hn.
    destruct Hn as [<-|[<-|[<-|[<-|[]]]]]; by_option_cases kw.
Qed.

Lemma copy_command_option_set_witness :
  In "--sort" criteria_flags
  /\ ~ In "--sort"
       (option_names
          (UnitCopyCommand (Method 0)
             (mkKwargs (Some "copy") None None (Some true)))).
Proof.
  assert (H : In "--sort" criteria_flags).
  { right. right. left. reflexivity. }
  split; [exact H|].
  exact (proj2 (proj2 (proj2
           (copy_command_option_set (Method 0)
              (mkKwargs (Some "copy") None None (Some true))))) "--sort" H).
Defined.

(** C8, as stated: every construction of the search-all command keeps
    [--limit] and [--skip].  A caller that passes [criteria=False] gets a
    command whose options are [--repo-id], [--after] and [--before] only. *)
Lemma search_all_without_criteria_has_no_limit :
  option_names
    (UnitSearchAllCommand (Method 0) (mkKwargs None None None (Some false)))
  = ["--repo-id"; "--after"; "--before"]
  /\ ~ (In "--limit"
          (option_names
             (UnitSearchAllCommand (Method 0)
                (mkKwargs None None None (Some false))))
        /\ In "--skip"
             (option_names
                (UnitSearchAllCommand (Method 0)
                   (mkKwargs None None None (Some false))))).
Proof.
  split; [reflexivity|].
  intros [H _]. apply has_option_true in H. discriminate H.
Qed.

(** C8, amended: whatever keyword arguments the caller passes, the
    search-all command has no option group and none of the filter options,
    [--sort] or [--fields]; it has [--limit] and [--skip] exactly when the
    caller has not switched the criteria options off ([criteria] left out or
    true). *)
Theorem search_all_command_option_set m kw :
  option_groups (UnitSearchAllCommand m kw) = []
  /\ (forall n, In n ("--filters" :: filter_flags ++ ["--sort"; "--fields"]) ->
                ~ In n (option_names (UnitSearchAllCommand m kw)))
  /\ (In "--limit" (option_names (UnitSearchAllCommand m kw))
      <-> kw_criteria kw <> Some false)
  /\ (In "--skip" (option_names (UnitSearchAllCommand m kw))
      <-> kw_criteria kw <> Some false).
Proof.
  split; [|split; [|split]].
  - destruct kw as [n d f [[|]|]]; reflexivity.
  - intros n Hn. rewrite search_all_command_option_names.
    unfold filter_flags in Hn. simpl in Hn.
    destruct (keyword (kw_criteria kw) true); simpl;
      intuition (subst; discriminate).
  - rewrite search_all_command_option_names.
    destruct kw as [n d f [[|]|]]; simpl; split;
      intuition (try discriminate; try congruence).
  - rewrite search_all_command_option_names.
    destruct kw as [n d f [[|]|]]; simpl; split;
      intuition (try discriminate; try congruence).
Qed.

Lemma search_all_command_option_set_witness :
  In "--limit" (option_names (UnitSearchAllCommand (Method 0) no_kwargs))
  /\ In "--skip" (option_names (UnitSearchAllCommand (Method 0) no_kwargs))
  /\ ~ In "--sort" (option_names (UnitSearchAllCommand (Method 0) no_kwargs)).
Proof.
  destruct (search_all_command_option_set (Method 0) no_kwargs)
    as (_ & Hout & Hlimit & Hskip).
  split; [|split].
  - apply Hlimit. discriminate.
  - apply Hskip. discriminate.
  - apply Hout. simpl. do 10 right. left. reflexivity.
Defined.

(** ** Worked examples *)

Example parse_key_value_examples :
  _parse_key_value ["a=b=c"; "=v"; "k="]
  = Return [["a"; "b=c"]; [""; "v"]; ["k"; ""]].
Proof. reflexivity. Qed.

Example parse_key_value_stops_at_first_bad_term :
  _parse_key_value ["a=b"; "novalue"] = Raise (ValueError key_value_message).
Proof. reflexivity. Qed.

Example explode_ignores_later_components :
  _explode_sort_arg_pieces "Name,Descending,x" = Return ("name", "descending").
Proof. reflexivity. Qed.

Example parse_sort_unvalidated_raises_usage :
  _parse_sort ["name,sideways"] = Raise CommandUsage.
Proof. reflexivity. Qed.

Example parse_sort_keeps_empty_field :
  _parse_sort [",descending"] = Return [("", "descending")].
Proof. reflexivity. Qed.

Example search_command_default_names :
  option_names (SearchCommand (Method 0) no_kwargs)
  = "--filters" :: criteria_flags ++ filter_flags.
Proof. reflexivity. Qed.

Example lower_changes_only_capitals :
  Py.lower "AZ az @[ 09 ,=" = "az az @[ 09 ,=".
Proof. reflexivity. Qed.

Example split_examples :
  Py.split "," None "" = [""]
  /\ Py.split "," None "a," = ["a"; ""]
  /\ Py.split "," None ",a,,b" = [""; "a"; ""; "b"]
  /\ Py.split "=" (Some 1) "a=b=c" = ["a"; "b=c"]
  /\ Py.split "=" (Some 1) "novalue" = ["novalue"].
Proof. repeat split. Qed.

(** * Further properties *)

(** ** Splitting and joining *)

Section SplitJoin.

Variable sep : ascii.

Lemma push_char_length c l :
  l <> [] -> List.length (Py.push_char c l) = List.length l.
Proof. destruct l; [congruence|reflexivity]. Qed.

Lemma join_push_char c l :
  l <> [] ->
  Py.join (String sep EmptyString) (Py.push_char c l)
  = String c (Py.join (String sep EmptyString) l).
Proof. destruct l as [|p [|q ps]]; [congruence|reflexivity|reflexivity]. Qed.

Lemma join_cons_piece p l :
  l <> [] ->
  Py.join (String sep EmptyString) (p :: l)
  = (p ++ String sep (Py.join (String sep EmptyString) l))%string.
Proof. destruct l as [|q ps]; [congruence|reflexivity]. Qed.

Lemma join_split m s :
  Py.join (String sep EmptyString) (Py.split sep m s) = s.
Proof.
  revert m. induction s as [|c rest IH]; intros m; simpl; [reflexivity|].
  destruct (c =? sep)%char eqn:Hc.
  - apply Ascii.eqb_eq in Hc. subst c. destruct m as [[|n]|].
    + rewrite join_push_char by apply split_not_nil. now rewrite IH.
    + rewrite join_cons_piece by apply split_not_nil. now rewrite IH.
    + rewrite join_cons_piece by apply split_not_nil. now rewrite IH.
  - rewrite join_push_char by apply split_not_nil. now rewrite IH.
Qed.

Lemma split_length m s :
  List.length (Py.split sep m s)
  = S (match m with
       | None => count_char sep s
       | Some n => Nat.min n (count_char sep s)
       end).
Proof.
  revert m. induction s as [|c rest IH]; intros m; simpl.
  - destruct m as [[|n]|]; reflexivity.
  - destruct (c =? sep)%char eqn:Hc.
    + destruct m as [[|n]|]; simpl.
      * rewrite push_char_length by apply split_not_nil. now rewrite IH.
      * now rewrite IH.
      * now rewrite IH.
    + rewrite push_char_length by apply split_not_nil. now rewrite IH.
Qed.

Lemma split_pieces_without_sep s :
  Forall (fun p => Py.has_char sep p = false) (Py.split sep None s).
Proof.
  induction s as [|c rest IH]; simpl.
  - repeat constructor.
  - destruct (c =? sep)%char eqn:Hc.
    + constructor; [reflexivity|exact IH].
    + destruct (Py.split sep None rest) as [|p ps]; simpl.
      * constructor; [simpl; now rewrite Hc|constructor].
      * inversion IH; subst. constructor; [simpl; now rewrite Hc|assumption].
Qed.

End SplitJoin.

(** X9: the [--fields] value is cut at every comma: there is one more name
    than there are commas (so the empty value gives one empty name), no name
    contains a comma, and joining the names with commas gives the value
    back. *)
Theorem fields_parse_func_pieces x :
  List.length (fields_parse_func x) = S (count_char "," x)
  /\ Forall (fun p => Py.has_char "," p = false) (fields_parse_func x)
  /\ Py.join "," (fields_parse_func x) = x.
Proof.
  unfold fields_parse_func. split; [|split].
  - apply (split_length "," None).
  - apply split_pieces_without_sep.
  - apply (join_split "," None).
Qed.

(** ** Filter terms: round trip and concatenation *)

Lemma equals_everywhere_or_missing args :
  Forall (fun arg => Py.has_char "=" arg = true) args
  \/ Exists (fun arg => Py.has_char "=" arg = false) args.
Proof.
  induction args as [|arg args [IH|IH]].
  - left. constructor.
  - destruct (Py.has_char "=" arg) eqn:H.
    + left. now constructor.
    + right. now left.
  - right. now right.
Qed.

Lemma parse_key_value_returns args ret :
  _parse_key_value args = Return ret -> Forall2 is_key_value args ret.
Proof.
  rewrite _parse_key_value_loop. intros H.
  destruct (equals_everywhere_or_missing args) as [Hall|Hex].
  - destruct (key_value_loop_ok args [] Hall) as (ret' & Hloop & Hpairs).
    rewrite Hloop in H. injection H as <-. exact Hpairs.
  - rewrite (key_value_loop_missing args [] Hex) in H. discriminate.
Qed.

(** X1: nothing is lost by filter-term parsing: when it returns, every
    result has exactly two components, the field contains no '=', and
    joining each result with '=' gives the input list back. *)
Theorem parse_key_value_round_trip args ret :
  _parse_key_value args = Return ret ->
  map (Py.join "=") ret = args
  /\ Forall (fun pair => List.length pair = 2) ret
  /\ Forall2 is_key_value args ret.
Proof.
  intros H. apply parse_key_value_returns in H.
  split; [|split; [|exact H]].
  - induction H as [|arg pair args ret (f & v & -> & -> & _) _ IH];
      [reflexivity|].
    simpl. now rewrite IH.
  - induction H as [|arg pair args ret (f & v & -> & _) _ IH];
      constructor; [reflexivity|exact IH].
Qed.

Lemma parse_key_value_round_trip_witness :
  map (Py.join "=") [["a"; "b=c"]; [""; ""]; ["k"; ""]] = ["a=b=c"; "="; "k="]
  /\ Forall (fun pair => List.length pair = 2) [["a"; "b=c"]; [""; ""]; ["k"; ""]]
  /\ Forall2 is_key_value ["a=b=c"; "="; "k="] [["a"; "b=c"]; [""; ""]; ["k"; ""]].
Proof.
  apply (parse_key_value_round_trip ["a=b=c"; "="; "k="]). reflexivity.
Defined.

(** X2: filter-term parsing of a concatenation is the concatenation of the
    parses, and it fails as soon as either part fails, the left part
    first. *)
Theorem parse_key_value_app xs ys :
  _parse_key_value (xs ++ ys)
  = r1 <- _parse_key_value xs ;;
    r2 <- _parse_key_value ys ;;
    Return (r1 ++ r2).
Proof.
  rewrite !_parse_key_value_loop, for_each_app.
  destruct (for_each key_value_body xs []) as [r1|e]; simpl; [|reflexivity].
  apply key_value_loop_acc.
Qed.

(** ** Sort tokens: normal form *)

Lemma lower_char_idempotent c :
  Py.lower_char (Py.lower_char c) = Py.lower_char c.
Proof. destruct c as [[] [] [] [] [] [] [] []]; reflexivity. Qed.

Lemma lower_char_comma c :
  (Py.lower_char c =? ",")%char = (c =? ",")%char.
Proof. destruct c as [[] [] [] [] [] [] [] []]; reflexivity. Qed.

Lemma lower_idempotent s : Py.lower (Py.lower s) = Py.lower s.
Proof.
  induction s as [|c rest IH]; simpl; [reflexivity|].
  now rewrite lower_char_idempotent, IH.
Qed.

Lemma lower_app a b : Py.lower (a ++ b) = (Py.lower a ++ Py.lower b)%string.
Proof. induction a as [|c rest IH]; simpl; [reflexivity|now rewrite IH]. Qed.

Lemma map_lower_push_char c l :
  map Py.lower (Py.push_char c l) = Py.push_char (Py.lower_char c) (map Py.lower l).
Proof. destruct l; reflexivity. Qed.

(** Lower-casing neither makes nor removes a comma, so it commutes with the
    split. *)
Lemma split_comma_lower s :
  Py.split "," None (Py.lower s) = map Py.lower (Py.split "," None s).
Proof.
  induction s as [|c rest IH]; [reflexivity|].
  cbn [Py.lower Py.split]. rewrite lower_char_comma, IH.
  destruct (c =? ",")%char; [reflexivity|].
  now rewrite map_lower_push_char.
Qed.

Lemma sort_pieces_normal s :
  Forall (fun p => Py.has_char "," p = false /\ Py.lower p = p)
         (Py.split "," None (Py.lower s)).
Proof.
  apply Forall_forall. intros p Hin. split.
  - pose proof (split_pieces_without_sep "," (Py.lower s)) as H.
    rewrite Forall_forall in H. now apply H.
  - rewrite split_comma_lower in Hin.
    apply in_map_iff in Hin as (q & <- & _). apply lower_idempotent.
Qed.

Lemma explode_normal sort_arg field_name direction :
  _explode_sort_arg_pieces sort_arg = Return (field_name, direction) ->
  Py.has_char "," field_name = false
  /\ Py.lower field_name = field_name
  /\ Py.has_char "," direction = false
  /\ Py.lower direction = direction
  /\ direction <> EmptyString.
Proof.
  unfold _explode_sort_arg_pieces. intros H.
  pose proof (sort_pieces_normal sort_arg) as Hn.
  destruct (Py.split "," None (Py.lower sort_arg)) as [|p0 [|p1 rest]];
    simpl in H; [discriminate| |].
  - injection H as <- <-. inversion Hn as [|? ? [Hc Hl] _]; subst.
    repeat split; auto. discriminate.
  - inversion Hn as [|? ? [Hc Hl] Hn']; subst.
    inversion Hn' as [|? ? [Hc1 Hl1] _]; subst.
    destruct p1 as [|c1 p1]; injection H as <- <-.
    + repeat split; auto. discriminate.
    + repeat split; auto. discriminate.
Qed.

(** X5: whatever the token, its decomposition is in normal form: neither
    part contains a comma or an ASCII capital, and the direction is never
    empty. *)
Theorem explode_sort_arg_pieces_normal_form sort_arg field_name direction :
  _explode_sort_arg_pieces sort_arg = Return (field_name, direction) ->
  Py.has_char "," field_name = false
  /\ Py.lower field_name = field_name
  /\ Py.has_char "," direction = false
  /\ Py.lower direction = direction
  /\ direction <> EmptyString.
Proof.
  unfold _explode_sort_arg_pieces. intros H.
  pose proof (sort_pieces_normal sort_arg) as Hn.
  destruct (Py.split "," None (Py.lower sort_arg)) as [|p0 [|p1 rest]];
    simpl in H; [discriminate| |].
  - injection H as <- <-. inversion Hn as [|? ? [Hc Hl] _]; subst.
    repeat split; auto. discriminate.
  - inversion Hn as [|? ? [Hc Hl] Hn']; subst.
    inversion Hn' as [|? ? [Hc1 Hl1] _]; subst.
    destruct p1 as [|c1 p1]; injection H as <- <-.
    + repeat split; auto. discriminate.
    + repeat split; auto. discriminate.
Qed.

Lemma explode_sort_arg_pieces_normal_form_witness :
  Py.has_char "," "name" = false
  /\ Py.lower "name" = "name"
  /\ Py.has_char "," "descending" = false
  /\ Py.lower "descending" = "descending"
  /\ "descending" <> EmptyString.
Proof.
  apply (explode_sort_arg_pieces_normal_form "Name,DESCENDING,,x").
  reflexivity.
Defined.

Lemma explode_sort_token sort_arg pair :
  _explode_sort_arg_pieces sort_arg = Return pair ->
  _explode_sort_arg_pieces (sort_token pair) = Return pair.
Proof.
  destruct pair as [f d]. intros H.
  destruct (explode_normal sort_arg f d H)
    as (Hfc & Hfl & Hdc & Hdl & Hne).
  unfold sort_token. simpl fst. simpl snd.
  rewrite (explode_two_components _ f d); [now rewrite or_nonempty| |assumption..].
  rewrite !lower_app, Hfl, Hdl. reflexivity.
Qed.

Lemma sort_pairs_reparse sort_args ret :
  Forall2 is_sort_pair sort_args ret ->
  Forall2 is_sort_pair (map sort_token ret) ret.
Proof.
  induction 1 as [|value pair sort_args ret [Hexp Hdir] _ IH]; simpl;
    constructor; [|exact IH].
  split; [exact (explode_sort_token _ _ Hexp)|exact Hdir].
Qed.

Lemma accepted_pairs sort_args ret :
  Forall accepted sort_args ->
  Forall2 is_sort_pair sort_args ret ->
  Forall (fun pair => fst pair <> EmptyString) ret.
Proof.
  intros Hacc H. induction H as [|value pair sort_args ret [Hexp _] _ IH];
    constructor; inversion Hacc as [|? ? (f & d & E & Hf & _) Hrest]; subst.
  - rewrite E in Hexp. injection Hexp as <-. exact Hf.
  - now apply IH.
Qed.

Lemma accepted_sort_tokens ret :
  Forall2 is_sort_pair (map sort_token ret) ret ->
  Forall (fun pair => fst pair <> EmptyString) ret ->
  Forall accepted (map sort_token ret).
Proof.
  induction ret as [|[f d] ret IH]; simpl; intros H Hne; constructor;
    inversion H as [|? ? ? ? [Hexp Hdir] Htail]; subst;
    inversion Hne as [|? ? Hf Hrest]; subst.
  - exists f, d. auto.
  - now apply IH.
Qed.

(** X6: parsed sort pairs are a fixed point: writing each pair back as
    [field,direction] and parsing again returns the same pairs, and if the
    original tokens passed validation the rewritten ones pass it too. *)
Theorem parse_sort_normalises sort_args ret :
  _parse_sort sort_args = Return ret ->
  _parse_sort (map sort_token ret) = Return ret
  /\ (_validate_sort sort_args = Return tt ->
      _validate_sort (map sort_token ret) = Return tt).
Proof.
  intros H. apply parse_sort_returns_iff in H.
  pose proof (sort_pairs_reparse _ _ H) as Hre. split.
  - now apply parse_sort_returns_iff.
  - intros Hv. apply validate_passes_iff in Hv. apply validate_passes_iff.
    apply accepted_sort_tokens; [exact Hre|].
    eapply accepted_pairs; eassumption.
Qed.

Lemma parse_sort_normalises_witness :
  _parse_sort
    (map sort_token [("b", "ascending"); ("a", "descending"); ("c", "ascending")])
  = Return [("b", "ascending"); ("a", "descending"); ("c", "ascending")]
  /\ (_validate_sort ["B"; "a,Descending,x"; "c,"] = Return tt ->
      _validate_sort
        (map sort_token
             [("b", "ascending"); ("a", "descending"); ("c", "ascending")])
      = Return tt).
Proof.
  apply (parse_sort_normalises ["B"; "a,Descending,x"; "c,"]). reflexivity.
Defined.

(** X8: after validation has passed, every pair that sort parsing returns
    has a non-empty field name free of commas and ASCII capitals, and one of
    the two legal directions. *)
Theorem validated_sort_pairs_well_formed sort_args ret :
  _validate_sort sort_args = Return tt ->
  _parse_sort sort_args = Return ret ->
  Forall (fun pair =>
            fst pair <> EmptyString
            /\ Py.has_char "," (fst pair) = false
            /\ Py.lower (fst pair) = fst pair
            /\ (snd pair = "ascending" \/ snd pair = "descending"))
         ret.
Proof.
  intros Hv Hp. apply validate_passes_iff in Hv.
  apply parse_sort_returns_iff in Hp.
  pose proof (accepted_pairs _ _ Hv Hp) as Hne. clear Hv.
  induction Hp as [|value [f d] sort_args ret [Hexp Hdir] _ IH];
    constructor; inversion Hne as [|? ? Hf Hrest]; subst.
  - destruct (explode_normal _ _ _ Hexp) as (Hc & Hl & _). auto.
  - now apply IH.
Qed.

Lemma validated_sort_pairs_well_formed_witness :
  Forall (fun pair =>
            fst pair <> EmptyString
            /\ Py.has_char "," (fst pair) = false
            /\ Py.lower (fst pair) = fst pair
            /\ (snd pair = "ascending" \/ snd pair = "descending"))
         [("name", "ascending"); ("size", "descending")].
Proof.
  apply (validated_sort_pairs_well_formed ["Name"; "SIZE,Descending"]);
    reflexivity.
Defined.

(** X7: sort validation stops at the first token it turns down, whatever
    follows it: an empty field name there gives the field-name error (also
    when the direction is illegal too), otherwise an illegal direction gives
    the direction error. *)
Theorem validate_sort_reports_first_offender pre bad post field_name direction :
  Forall accepted pre ->
  _explode_sort_arg_pieces bad = Return (field_name, direction) ->
  (field_name = EmptyString ->
   _validate_sort (pre ++ bad :: post) = Raise (ValueError field_name_message))
  /\ (field_name <> EmptyString ->
      direction <> "ascending" -> direction <> "descending" ->
      _validate_sort (pre ++ bad :: post)
      = Raise (ValueError direction_message)).
Proof.
  intros Hpre Hexp.
  apply validate_passes_iff in Hpre. rewrite _validate_sort_loop in Hpre.
  assert (Hstep : _validate_sort (pre ++ bad :: post)
                  = st <- (if (String.length field_name =? 0)%nat
                           then Raise (ValueError (Py.gettext field_name_message))
                           else if negb (Py.contains directions direction)
                           then Raise (ValueError (Py.gettext direction_message))
                           else Return tt) ;;
                    for_each validate_sort_body post st).
  { rewrite _validate_sort_loop, for_each_app, Hpre.
    cbn [bind for_each]. unfold validate_sort_body at 1, Py.str.
    rewrite Hexp. reflexivity. }
  rewrite Hstep. split.
  - intros ->. reflexivity.
  - intros Hf Ha Hd.
    destruct field_name as [|c f]; [congruence|]. cbn [String.length Nat.eqb].
    assert (Hno : Py.contains directions direction = false)
      by now apply not_contains_directions.
    rewrite Hno. reflexivity.
Qed.

Lemma validate_sort_reports_first_offender_witness :
  _validate_sort (["name"; "size,descending"] ++ ",sideways" :: ["x,bad"])
  = Raise (ValueError field_name_message).
Proof.
  apply (validate_sort_reports_first_offender
           ["name"; "size,descending"] ",sideways" ["x,bad"] "" "sideways").
  - repeat constructor.
    + exists "name", "ascending". repeat split; [discriminate|now left].
    + exists "size", "descending". repeat split; [discriminate|now right].
  - reflexivity.
  - reflexivity.
Defined.

Lemma parse_sort_loop_acc sort_args acc :
  for_each parse_sort_body sort_args acc
  = ret <- for_each parse_sort_body sort_args [] ;; Return (acc ++ ret).
Proof.
  destruct (parse_sort_loop_cases sort_args acc)
    as [(r & Hloop & Hall)|[Hloop Hno]];
    destruct (parse_sort_loop_cases sort_args [])
      as [(r' & Hloop' & Hall')|[Hloop' Hno']];
    rewrite Hloop, Hloop'; simpl.
  - now rewrite (sort_pairs_functional _ _ _ Hall Hall').
  - destruct (Hno' _ Hall).
  - destruct (Hno _ Hall').
  - reflexivity.
Qed.

(** X3: sort parsing of a concatenation is the concatenation of the parses,
    in that order, and it raises the usage fault as soon as either part
    does. *)
Theorem parse_sort_app xs ys :
  _parse_sort (xs ++ ys)
  = r1 <- _parse_sort xs ;;
    r2 <- _parse_sort ys ;;
    Return (r1 ++ r2).
Proof.
  rewrite !_parse_sort_loop, for_each_app.
  destruct (for_each parse_sort_body xs []) as [r1|e]; simpl; [|reflexivity].
  apply parse_sort_loop_acc.
Qed.

(** ** Sort tokens: letter case *)

Lemma explode_lower sort_arg :
  _explode_sort_arg_pieces (Py.lower sort_arg)
  = _explode_sort_arg_pieces sort_arg.
Proof. unfold _explode_sort_arg_pieces. now rewrite lower_idempotent. Qed.

Lemma for_each_map {A S : Type} (body : S -> A -> result S) (g : A -> A) xs :
  (forall st x, body st (g x) = body st x) ->
  forall st, for_each body (map g xs) st = for_each body xs st.
Proof.
  intros Hg. induction xs as [|x xs IH]; intros st; simpl; [reflexivity|].
  rewrite Hg. destruct (body st x); simpl; [apply IH|reflexivity].
Qed.

(** X4: sort tokens are case-insensitive: validation and parsing give the
    same outcome, error or result, on a list of tokens and on the same
    tokens written in lower case. *)
Theorem sort_tokens_case_insensitive sort_args :
  _validate_sort (map Py.lower sort_args) = _validate_sort sort_args
  /\ _parse_sort (map Py.lower sort_args) = _parse_sort sort_args.
Proof.
  rewrite !_validate_sort_loop, !_parse_sort_loop. split; apply for_each_map.
  - intros st x. unfold validate_sort_body, Py.str. now rewrite explode_lower.
  - intros st x. unfold parse_sort_body. now rewrite explode_lower.
Qed.

(** ** The option sets of all the command classes *)

Lemma distinct_NoDup l : distinct l = true -> NoDup l.
Proof.
  induction l as [|x xs IH]; simpl; intros H; constructor;
    apply andb_true_iff in H as [Hx Hxs].
  - intros Hin. apply negb_true_iff in Hx.
    assert (Py.contains xs x = true); [|congruence].
    apply existsb_exists. exists x. split; [exact Hin|apply String.eqb_refl].
  - now apply IH.
Qed.

(** X10: in each of the four command classes, whatever keyword arguments
    are passed, no option name or alias occurs twice and no alias equals an
    option name. *)
Theorem command_flags_distinct V m kw :
  In V command_variants ->
  NoDup (option_names (V m kw) ++ option_aliases (V m kw)).
Proof.
  intros HV. apply distinct_NoDup.
  simpl in HV. destruct HV as [<-|[<-|[<-|[<-|[]]]]]; by_option_cases kw.
Qed.

Lemma command_flags_distinct_witness :
  NoDup (option_names (UnitCopyCommand (Method 0) no_kwargs)
         ++ option_aliases (UnitCopyCommand (Method 0) no_kwargs)).
Proof.
  apply (command_flags_distinct UnitCopyCommand).
  simpl. right. right. left. reflexivity.
Defined.

(** X11: the options a user must give: none for the plain search command,
    [--repo-id] for the unit search and search-all commands, and
    [--from-repo-id] and [--to-repo-id] for the copy command, whatever
    keyword arguments are passed. *)
Theorem command_required_options m kw :
  required_names (SearchCommand m kw) = []
  /\ required_names (UnitSearchCommand m kw) = ["--repo-id"]
  /\ required_names (UnitCopyCommand m kw) = ["--from-repo-id"; "--to-repo-id"]
  /\ required_names (UnitSearchAllCommand m kw) = ["--repo-id"].
Proof. repeat split; by_option_cases kw. Qed.

(** X12: the plain search command has the filter options exactly when
    [filtering] is on and the criteria options exactly when [criteria] is
    on (both on by default); with both off it has no option at all.  The
    unit search command has the same options and [--repo-id], [--after],
    [--before]. *)
Theorem search_command_option_names m kw :
  option_names (SearchCommand m kw)
  = (if keyword (kw_filtering kw) true then ["--filters"] else [])
    ++ (if keyword (kw_criteria kw) true then criteria_flags else [])
    ++ (if keyword (kw_filtering kw) true then filter_flags else [])
  /\ forall n,
       has_option n (UnitSearchCommand m kw)
       = has_option n (SearchCommand m kw)
         || Py.contains ["--repo-id"; "--after"; "--before"] n.
Proof.
  split; [by_option_cases kw|].
  intros n. unfold has_option, option_set, UnitSearchCommand, create_option,
    add_option. cbn [options option_groups].
  rewrite !existsb_app. cbn [existsb name].
  rewrite !orb_false_r, <- !orb_assoc.
  rewrite (String.eqb_sym "--repo-id"), (String.eqb_sym "--after"),
    (String.eqb_sym "--before").
  unfold Py.contains. cbn [existsb]. rewrite orb_false_r.
  set (a := existsb _ (options _)). set (g := existsb _ (flat_map _ _)).
  destruct a, g, (n =? "--repo-id")%string, (n =? "--after")%string,
    (n =? "--before")%string; reflexivity.
Qed.

(** X13: the per-operator filter options come as a unit: every grouped
    option of every command class is one of the nine filter flags, is
    optional, may be repeated, has no alias and is parsed by
    [_parse_key_value]; and each filter flag is present exactly when
    [--filters] is. *)
Theorem filter_group_uniform V m kw :
  In V command_variants ->
  Forall (fun opt =>
            Py.contains filter_flags (name opt) = true
            /\ option_shape opt = ([], false, true, Some parse_key_value_func)
            /\ validate_func opt = None)
         (grouped_options (V m kw))
  /\ forall n,
       In n filter_flags ->
       has_option n (V m kw) = has_option "--filters" (V m kw).
Proof.
  intros HV. simpl in HV. split.
  - destruct HV as [<-|[<-|[<-|[<-|[]]]]];
      destruct kw as [n d [[|]|] [[|]|]]; repeat constructor.
  - intros n Hn. unfold filter_flags in Hn. simpl in Hn.
    destruct HV as [<-|[<-|[<-|[<-|[]]]]];
      repeat (destruct Hn as [<-|Hn]; [by_option_cases kw|]);
      contradiction.
Qed.

Lemma filter_group_uniform_witness :
  has_option "--gte" (UnitCopyCommand (Method 0) no_kwargs)
  = has_option "--filters" (UnitCopyCommand (Method 0) no_kwargs).
Proof.
  apply (proj2 (filter_group_uniform UnitCopyCommand (Method 0) no_kwargs
                  (or_intror (or_intror (or_introl eq_refl))))).
  simpl. do 6 right. left. reflexivity.
Defined.

(** X14: each repository-scoped command class (unit search, copy,
    search-all) keeps the two time bounds whatever keyword arguments are
    passed: [--after] with alias [-a] and [--before] with alias [-b], both
    optional, single-valued and parsed as ISO-8601. *)
Theorem unit_commands_keep_time_bounds V m kw :
  In V unit_variants ->
  option_map option_shape (find_option "--after" (V m kw))
  = Some (["-a"], false, false, Some parsers_iso8601)
  /\ option_map option_shape (find_option "--before" (V m kw))
     = Some (["-b"], false, false, Some parsers_iso8601).
Proof.
  intros HV. simpl in HV.
  destruct HV as [<-|[<-|[<-|[]]]]; split; by_option_cases kw.
Qed.

Lemma unit_commands_keep_time_bounds_witness :
  option_map option_shape
    (find_option "--after" (UnitSearchAllCommand (Method 0) no_kwargs))
  = Some (["-a"], false, false, Some parsers_iso8601)
  /\ option_map option_shape
       (find_option "--before" (UnitSearchAllCommand (Method 0) no_kwargs))
     = Some (["-b"], false, false, Some parsers_iso8601).
Proof.
  apply (unit_commands_keep_time_bounds UnitSearchAllCommand).
  simpl. right. right. left. reflexivity.
Defined.

Lemma variant_name_and_description V m kw :
  In V command_variants ->
  command_name (V m kw) = pop_or (kw_name kw) "search"
  /\ command_description (V m kw)
     = pop_or (kw_description kw) _SEARCH_DESCRIPTION.
Proof.
  intros HV. simpl in HV.
  destruct HV as [<-|[<-|[<-|[<-|[]]]]];
    destruct kw as [n d [[|]|] [[|]|]]; split; reflexivity.
Qed.

Lemma pop_or_cases v default :
  default <> EmptyString ->
  pop_or v default <> EmptyString
  /\ (forall n, v = Some n -> n <> EmptyString -> pop_or v default = n)
  /\ (v = None \/ v = Some EmptyString -> pop_or v default = default).
Proof.
  intros Hd. destruct v as [[|c s]|]; simpl; repeat split;
    try assumption; try discriminate.
  - intros n E Hn. injection E as <-. congruence.
  - intros n E _. now injection E as <-.
  - intros [E|E]; discriminate E.
Qed.

(** X15: a command of any of the four classes never has an empty name or
    description: a name or description that is left out or empty is
    replaced by [search] or the search help text, and one that is given is
    kept. *)
Theorem command_name_never_empty V m kw :
  In V command_variants ->
  command_name (V m kw) <> EmptyString
  /\ command_description (V m kw) <> EmptyString
  /\ (forall n, kw_name kw = Some n -> n <> EmptyString ->
                command_name (V m kw) = n)
  /\ (kw_name kw = None \/ kw_name kw = Some EmptyString ->
      command_name (V m kw) = "search")
  /\ (kw_description kw = None \/ kw_description kw = Some EmptyString ->
      command_description (V m kw) = _SEARCH_DESCRIPTION).
Proof.
  intros HV.
  destruct (variant_name_and_description V m kw HV) as [-> ->].
  destruct (pop_or_cases (kw_name kw) "search") as (H1 & H2 & H3);
    [discriminate|].
  destruct (pop_or_cases (kw_description kw) _SEARCH_DESCRIPTION)
    as (H4 & _ & H6); [discriminate|].
  auto.
Qed.

Lemma command_name_never_empty_witness :
  command_name
    (UnitSearchAllCommand (Method 0) (mkKwargs (Some "") None None None))
  = "search".
Proof.
  apply (command_name_never_empty UnitSearchAllCommand (Method 0)
           (mkKwargs (Some "") None None None)).
  - simpl. do 3 right. left. reflexivity.
  - right. reflexivity.
Defined.
